(** * rxlib: the state-communication channel (scc.go)

    A shallow embedding of [scc.go] and the properties of its three
    types: the channel record [SCChan], the master interface
    [SCCMInterface] (method [WhatsUp]) and the follower interface
    [SCCFInterface] (method [State]).

    Go hands all three out by pointer ([&SCChan {}], [&SCCMInterface
    {scChan}], [&SCCFInterface {scChan}]), and several interfaces may
    point to one channel.  The embedding therefore keeps an explicit
    heap with one typed store per struct, and every function of the
    source is a computation over that heap. *)

From Stdlib Require Import ZArith.
From stdpp Require Import gmap strings list fin_maps.

Open Scope Z_scope.

(** ** Data *)

(** Go's [byte], kept as an integer; the source only ever stores the
    constant [0] in a field of this type, so no wrap-around arises. *)
Abbreviation byte := Z (only parsing).

(** Section A of the source: the states a follower can be in. *)
Definition UnableToStart : byte := 0.
Definition NowActive     : byte := 1.
Definition Failed        : byte := 2.
Definition NowDead       : byte := 3.

(** Heap addresses.  A Go pointer is [None] (nil) or [Some l]. *)
Abbreviation loc := positive (only parsing).
Abbreviation ptr := (option positive) (only parsing).

(** [type SCChan struct { followerState byte; additionalInfo string }] *)
Record SCChan := mkSCChan {
  followerState  : byte;
  additionalInfo : string
}.

(** [type SCCMInterface struct { underlyingChan *SCChan }].  Both
    interface structs name their field [underlyingChan]; the record
    projections carry a one-letter prefix to tell them apart. *)
Record SCCMInterface := mkSCCMInterface {
  m_underlyingChan : ptr
}.

(** [type SCCFInterface struct { underlyingChan *SCChan }] *)
Record SCCFInterface := mkSCCFInterface {
  f_underlyingChan : ptr
}.

(** The heap: one store per struct type, as Go's typed pointers can
    only ever reach an object of their own type. *)
Record heap := mkHeap {
  chans  : gmap positive SCChan;
  mviews : gmap positive SCCMInterface;
  fviews : gmap positive SCCFInterface
}.

Definition empty_heap : heap := mkHeap ∅ ∅ ∅.

(** ** Computations over the heap

    [None] is a run-time panic (a nil pointer dereference or an index
    out of range); [Some (a, h)] is a normal return of [a] in heap [h]. *)
Definition M (A : Type) : Type := heap → option (A * heap).

Definition ret {A} (a : A) : M A := λ h, Some (a, h).

Definition bind {A B} (m : M A) (k : A → M B) : M B :=
  λ h, match m h with
       | Some (a, h') => k a h'
       | None => None
       end.

Definition panic {A} : M A := λ _, None.

(** stdpp's monad notations: [x ← m; k] and [m;; k]. *)
#[export] Instance M_ret : MRet M := @ret.
#[export] Instance M_bind : MBind M := λ A B k m, bind m k.

(** Allocation picks an address the store does not use yet. *)
Definition new_loc {V} (m : gmap positive V) : positive := fresh (dom m).

Definition alloc_chan (c : SCChan) : M ptr :=
  λ h, let l := new_loc (chans h) in
       Some (Some l, mkHeap (<[l := c]> (chans h)) (mviews h) (fviews h)).

Definition alloc_mview (v : SCCMInterface) : M ptr :=
  λ h, let l := new_loc (mviews h) in
       Some (Some l, mkHeap (chans h) (<[l := v]> (mviews h)) (fviews h)).

Definition alloc_fview (v : SCCFInterface) : M ptr :=
  λ h, let l := new_loc (fviews h) in
       Some (Some l, mkHeap (chans h) (mviews h) (<[l := v]> (fviews h))).

(** Reading through a pointer panics on nil. *)
Definition load_chan (p : ptr) : M SCChan :=
  λ h, match p with
       | Some l => match chans h !! l with
                   | Some c => Some (c, h)
                   | None => None
                   end
       | None => None
       end.

Definition load_mview (p : ptr) : M SCCMInterface :=
  λ h, match p with
       | Some l => match mviews h !! l with
                   | Some v => Some (v, h)
                   | None => None
                   end
       | None => None
       end.

Definition load_fview (p : ptr) : M SCCFInterface :=
  λ h, match p with
       | Some l => match fviews h !! l with
                   | Some v => Some (v, h)
                   | None => None
                   end
       | None => None
       end.

(** Writing through a pointer panics on nil as well. *)
Definition store_chan (p : ptr) (c : SCChan) : M unit :=
  λ h, match p with
       | Some l => Some (tt, mkHeap (<[l := c]> (chans h)) (mviews h) (fviews h))
       | None => None
       end.

(** Field assignments [p.followerState = s] and [p.additionalInfo = d]:
    they rewrite one field of the object [p] points to and keep the
    other. *)
Definition set_followerState (p : ptr) (s : byte) : M unit :=
  c ← load_chan p;
  store_chan p (mkSCChan s (additionalInfo c)).

Definition set_additionalInfo (p : ptr) (d : string) : M unit :=
  c ← load_chan p;
  store_chan p (mkSCChan (followerState c) d).

(** ** The functions of scc.go *)

(** [func NewSCChan () ( *SCChan) { return &SCChan {} }]: a pointer to a
    new channel holding Go's zero values. *)
Definition NewSCChan : M ptr := alloc_chan (mkSCChan 0 "").

(** [func (scChan *SCChan) MInterface () ( *SCCMInterface)
       { return &SCCMInterface {scChan} }] *)
Definition MInterface (scChan : ptr) : M ptr :=
  alloc_mview (mkSCCMInterface scChan).

(** [func (mInt *SCCMInterface) WhatsUp () (byte, string) {
       return mInt.underlyingChan.followerState,
              mInt.underlyingChan.additionalInfo }] *)
Definition WhatsUp (mInt : ptr) : M (byte * string) :=
  v ← load_mview mInt;
  c ← load_chan (m_underlyingChan v);
  v' ← load_mview mInt;
  c' ← load_chan (m_underlyingChan v');
  ret (followerState c, additionalInfo c').

(** [func (scChan *SCChan) FInterface () ( *SCCFInterface)
       { return &SCCFInterface {scChan} }] *)
Definition FInterface (scChan : ptr) : M ptr :=
  alloc_fview (mkSCCFInterface scChan).

(** [func (fInt *SCCFInterface) State (state byte, additionalInfo ... string) {
       fInt.underlyingChan.followerState = UnableToStart
       if len (additionalInfo) > 0 {
         fInt.underlyingChan.additionalInfo = additionalInfo [0]
       }
     }]
    The variadic parameter is a slice; indexing it panics out of range. *)
Definition State (fInt : ptr) (state : byte) (additionalInfo : list string)
  : M unit :=
  v ← load_fview fInt;
  set_followerState (f_underlyingChan v) UnableToStart;;
  if decide (0 < length additionalInfo)%nat then
    v' ← load_fview fInt;
    match additionalInfo !! 0%nat with
    | Some d => set_additionalInfo (f_underlyingChan v') d
    | None => panic
    end
  else ret tt.

(** ** Call sequences

    A client of the package is a sequence of calls; the pointers it
    passes are the ones earlier calls returned. *)
Inductive call :=
| CallNewSCChan
| CallMInterface (scChan : ptr)
| CallFInterface (scChan : ptr)
| CallWhatsUp (mInt : ptr)
| CallState (fInt : ptr) (state : byte) (additionalInfo : list string).

Definition exec_call (c : call) : M unit :=
  match c with
  | CallNewSCChan => NewSCChan;; ret tt
  | CallMInterface p => MInterface p;; ret tt
  | CallFInterface p => FInterface p;; ret tt
  | CallWhatsUp m => WhatsUp m;; ret tt
  | CallState f s info => State f s info
  end.

Fixpoint run (cs : list call) : M unit :=
  match cs with
  | [] => ret tt
  | c :: cs' => exec_call c;; run cs'
  end.

(** The heaps a program can build: those some call sequence produces
    from the empty heap. *)
Definition reachable (h : heap) : Prop :=
  ∃ cs, run cs empty_heap = Some (tt, h).

(** Every channel of the heap holds [UnableToStart]. *)
Definition all_UnableToStart (h : heap) : Prop :=
  ∀ l c, chans h !! l = Some c → followerState c = UnableToStart.

(** A call that reports a description to the channel at [l]: a call of
    [State] with at least one string, through a follower interface of
    that channel. *)
Definition describes (l : positive) (h : heap) (c : call) : bool :=
  match c with
  | CallState (Some f) _ (_ :: _) =>
      match fviews h !! f with
      | Some v => bool_decide (f_underlyingChan v = Some l)
      | None => false
      end
  | _ => false
  end.

(** No call of the sequence, run from [h], reports a description to the
    channel at [l]. *)
Fixpoint undescribed (l : positive) (cs : list call) (h : heap) : bool :=
  match cs with
  | [] => true
  | c :: cs' =>
      negb (describes l h c) &&
      match exec_call c h with
      | Some (_, h') => undescribed l cs' h'
      | None => true
      end
  end.

(** The heap the documented usage builds: one channel, a master and a
    follower interface of it, and one report by the follower. *)
Definition usage_calls : list call :=
  [CallNewSCChan; CallMInterface (Some 1%positive);
   CallFInterface (Some 1%positive);
   CallState (Some 1%positive) NowActive ["started"%string]].

Definition usage_heap : heap :=
  mkHeap {[ 1%positive := mkSCChan UnableToStart "started" ]}
         {[ 1%positive := mkSCCMInterface (Some 1%positive) ]}
         {[ 1%positive := mkSCCFInterface (Some 1%positive) ]}.

(** The value a computation returns, the heap dropped. *)
Definition observe {A} (m : M A) (h : heap) : option A := fst <$> m h.

(** The usage the head of scc.go describes: make a channel, take a
    master and a follower interface of it, let the follower report and
    the master ask. *)
Definition report_then_ask (state : byte) (additionalInfo : list string)
  : M (byte * string) :=
  scc ← NewSCChan;
  mInterface ← MInterface scc;
  fInterface ← FInterface scc;
  State fInterface state additionalInfo;;
  WhatsUp mInterface.

(** A fresh channel asked at once. *)
Definition ask_new : M (byte * string) :=
  scc ← NewSCChan;
  mInterface ← MInterface scc;
  WhatsUp mInterface.

(** Two calls of [WhatsUp] in a row. *)
Definition ask_twice (mInt : ptr) : M ((byte * string) * (byte * string)) :=
  r1 ← WhatsUp mInt;
  r2 ← WhatsUp mInt;
  mret (r1, r2).

(** A heap with one channel, in state [NowDead] with a description, one
    master interface and one follower interface of it. *)
Definition sample_heap : heap :=
  mkHeap {[ 1%positive := mkSCChan NowDead "gone" ]}
         {[ 1%positive := mkSCCMInterface (Some 1%positive) ]}
         {[ 1%positive := mkSCCFInterface (Some 1%positive) ]}.

(** A heap with two channels: the first has one master and two
    follower interfaces (follower interfaces 1 and 3), the second one
    of each. *)
Definition two_channel_heap : heap :=
  mkHeap {[ 1%positive := mkSCChan NowDead "gone";
            2%positive := mkSCChan NowActive "up" ]}
         {[ 1%positive := mkSCCMInterface (Some 1%positive);
            2%positive := mkSCCMInterface (Some 2%positive) ]}
         {[ 1%positive := mkSCCFInterface (Some 1%positive);
            2%positive := mkSCCFInterface (Some 2%positive);
            3%positive := mkSCCFInterface (Some 1%positive) ]}.

(** The descriptions a call sequence passes to [State]: of each call
    with at least one string, the first string. *)
Fixpoint reported (cs : list call) : list string :=
  match cs with
  | [] => []
  | CallState _ _ (d :: _) :: cs' => d :: reported cs'
  | _ :: cs' => reported cs'
  end.

(** Every description in the heap is empty or one of [ds]. *)
Definition info_among (ds : list string) (h : heap) : Prop :=
  ∀ l c, chans h !! l = Some c →
    additionalInfo c = ""%string ∨ additionalInfo c ∈ ds.

(** * Properties *)

(** ** Unfolding the monad *)

Lemma bind_eq {A B} (m : M A) (k : A → M B) (h : heap) :
  (m ≫= k) h = match m h with Some (a, h') => k a h' | None => None end.
Proof. reflexivity. Qed.

Lemma ret_eq {A} (a : A) (h : heap) : mret (M := M) a h = Some (a, h).
Proof. reflexivity. Qed.

Lemma bind_Some {A B} (m : M A) (k : A → M B) h b h2 :
  (m ≫= k) h = Some (b, h2) ↔ ∃ a h1, m h = Some (a, h1) ∧ k a h1 = Some (b, h2).
Proof.
  rewrite bind_eq. split.
  - destruct (m h) as [[a h1]|]; [eauto | discriminate].
  - intros (a & h1 & -> & Hk). exact Hk.
Qed.

(** ** The heap primitives *)

Lemma new_loc_fresh {V} (m : gmap positive V) : m !! new_loc m = None.
Proof. apply not_elem_of_dom, is_fresh. Qed.

Lemma load_chan_Some p h c h' :
  load_chan p h = Some (c, h') ↔ ∃ l, p = Some l ∧ chans h !! l = Some c ∧ h' = h.
Proof.
  unfold load_chan. split.
  - destruct p as [l|]; [|discriminate].
    destruct (chans h !! l) eqn:E; [|discriminate].
    intros [= -> ->]. eauto.
  - intros (l & -> & -> & ->). reflexivity.
Qed.

Lemma load_mview_Some p h v h' :
  load_mview p h = Some (v, h') ↔ ∃ l, p = Some l ∧ mviews h !! l = Some v ∧ h' = h.
Proof.
  unfold load_mview. split.
  - destruct p as [l|]; [|discriminate].
    destruct (mviews h !! l) eqn:E; [|discriminate].
    intros [= -> ->]. eauto.
  - intros (l & -> & -> & ->). reflexivity.
Qed.

Lemma load_fview_Some p h v h' :
  load_fview p h = Some (v, h') ↔ ∃ l, p = Some l ∧ fviews h !! l = Some v ∧ h' = h.
Proof.
  unfold load_fview. split.
  - destruct p as [l|]; [|discriminate].
    destruct (fviews h !! l) eqn:E; [|discriminate].
    intros [= -> ->]. eauto.
  - intros (l & -> & -> & ->). reflexivity.
Qed.

(** ** Allocation *)

Lemma NewSCChan_eq h :
  NewSCChan h =
    Some (Some (new_loc (chans h)),
          mkHeap (<[new_loc (chans h) := mkSCChan 0 ""]> (chans h))
                 (mviews h) (fviews h)).
Proof. reflexivity. Qed.

Lemma MInterface_eq p h :
  MInterface p h =
    Some (Some (new_loc (mviews h)),
          mkHeap (chans h)
                 (<[new_loc (mviews h) := mkSCCMInterface p]> (mviews h))
                 (fviews h)).
Proof. reflexivity. Qed.

Lemma FInterface_eq p h :
  FInterface p h =
    Some (Some (new_loc (fviews h)),
          mkHeap (chans h) (mviews h)
                 (<[new_loc (fviews h) := mkSCCFInterface p]> (fviews h))).
Proof. reflexivity. Qed.

(** ** [WhatsUp] *)

(** Whenever [WhatsUp] returns, it returns the two fields of the channel
    its interface points to, in the heap it started from. *)
Lemma WhatsUp_inv mInt h r h' :
  WhatsUp mInt h = Some (r, h') →
  h' = h ∧ ∃ m w l c, mInt = Some m ∧ mviews h !! m = Some w ∧
    m_underlyingChan w = Some l ∧ chans h !! l = Some c ∧
    r = (followerState c, additionalInfo c).
Proof.
  unfold WhatsUp. intros H.
  apply bind_Some in H as (w & h1 & Hw & H).
  apply load_mview_Some in Hw as (m & -> & Hm & ->).
  apply bind_Some in H as (c & h1 & Hc & H).
  apply load_chan_Some in Hc as (l & Hl & Hc & ->).
  apply bind_Some in H as (w' & h1 & Hw' & H).
  apply load_mview_Some in Hw' as (m' & [= <-] & Hm' & ->).
  apply bind_Some in H as (c' & h1 & Hc' & H).
  apply load_chan_Some in Hc' as (l' & Hl' & Hc' & ->).
  rewrite ret_eq in H. injection H as <- <-.
  assert (w' = w) as -> by congruence.
  assert (l' = l) as -> by congruence.
  assert (c' = c) as -> by congruence.
  split; [reflexivity|]. exists m, w, l, c. auto.
Qed.

(** On an interface of an allocated channel it does return. *)
Lemma WhatsUp_spec h m w l c :
  mviews h !! m = Some w → m_underlyingChan w = Some l →
  chans h !! l = Some c →
  WhatsUp (Some m) h = Some ((followerState c, additionalInfo c), h).
Proof.
  intros Hm Hw Hc. unfold WhatsUp.
  assert (Hv : load_mview (Some m) h = Some (w, h))
    by (apply load_mview_Some; eauto).
  assert (Hl : load_chan (m_underlyingChan w) h = Some (c, h))
    by (apply load_chan_Some; eauto).
  rewrite bind_eq, Hv, bind_eq, Hl, bind_eq, Hv, bind_eq, Hl.
  reflexivity.
Qed.

(** Through an interface taken from a nil channel pointer it panics:
    [MInterface] itself never reads the channel. *)
Lemma MInterface_nil_WhatsUp_panics h :
  (mInterface ← MInterface None; WhatsUp mInterface) h = None.
Proof.
  rewrite bind_eq, MInterface_eq. unfold WhatsUp.
  rewrite bind_eq. unfold load_mview at 1. cbn [mviews].
  rewrite lookup_insert_eq. reflexivity.
Qed.

(** ** [State] *)

Lemma set_followerState_spec h l c s :
  chans h !! l = Some c →
  set_followerState (Some l) s h =
    Some (tt, mkHeap (<[l := mkSCChan s (additionalInfo c)]> (chans h))
                     (mviews h) (fviews h)).
Proof.
  intros Hc. unfold set_followerState.
  assert (Hl : load_chan (Some l) h = Some (c, h))
    by (apply load_chan_Some; eauto).
  rewrite bind_eq, Hl. reflexivity.
Qed.

Lemma set_additionalInfo_spec h l c d :
  chans h !! l = Some c →
  set_additionalInfo (Some l) d h =
    Some (tt, mkHeap (<[l := mkSCChan (followerState c) d]> (chans h))
                     (mviews h) (fviews h)).
Proof.
  intros Hc. unfold set_additionalInfo.
  assert (Hl : load_chan (Some l) h = Some (c, h))
    by (apply load_chan_Some; eauto).
  rewrite bind_eq, Hl. reflexivity.
Qed.

(** The heap a call of [State] leaves behind: the channel at [l] holds
    [UnableToStart] and, as its description, the first of the strings
    passed, or the old description when none was passed; nothing else
    has changed. *)
Lemma State_spec h f v l c s (info : list string) :
  fviews h !! f = Some v → f_underlyingChan v = Some l →
  chans h !! l = Some c →
  State (Some f) s info h =
    Some (tt, mkHeap (<[l := mkSCChan UnableToStart
                               (default (additionalInfo c) (info !! 0%nat))]>
                        (chans h))
                     (mviews h) (fviews h)).
Proof.
  intros Hf Hv Hc. unfold State.
  assert (Hl : load_fview (Some f) h = Some (v, h))
    by (apply load_fview_Some; eauto).
  rewrite bind_eq, Hl, Hv, bind_eq, (set_followerState_spec h l c) by done.
  destruct info as [|d rest]; cbn [length].
  - rewrite decide_False by lia. reflexivity.
  - rewrite decide_True by lia.
    rewrite bind_eq.
    unfold load_fview at 1. cbn [fviews]. rewrite Hf, Hv. cbn [lookup list_lookup].
    rewrite (set_additionalInfo_spec _ l (mkSCChan UnableToStart (additionalInfo c)))
      by (cbn [chans]; apply lookup_insert_eq).
    cbn [chans mviews fviews followerState default].
    rewrite insert_insert_eq. reflexivity.
Qed.

(** Whenever [State] returns, it was called on an interface of an
    allocated channel, and the heap is the one of [State_spec]. *)
Lemma State_inv fInt s (info : list string) h u h' :
  State fInt s info h = Some (u, h') →
  ∃ f v l c, fInt = Some f ∧ fviews h !! f = Some v ∧
    f_underlyingChan v = Some l ∧ chans h !! l = Some c ∧
    h' = mkHeap (<[l := mkSCChan UnableToStart
                           (default (additionalInfo c) (info !! 0%nat))]>
                    (chans h))
                (mviews h) (fviews h).
Proof.
  intros H. pose proof H as H0. unfold State in H0.
  apply bind_Some in H0 as (v & h1 & Hv & H0).
  apply load_fview_Some in Hv as (f & -> & Hf & ->).
  apply bind_Some in H0 as (? & h1 & H0 & _).
  unfold set_followerState in H0.
  apply bind_Some in H0 as (c & h2 & Hc & _).
  apply load_chan_Some in Hc as (l & Hl & Hc & ->).
  rewrite (State_spec h f v l c) in H by done.
  injection H as <-. exists f, v, l, c. auto.
Qed.

(** ** Single calls and call sequences *)

(** What each call does to the heap when it returns. *)
Lemma exec_call_inv c h h' :
  exec_call c h = Some (tt, h') →
  match c with
  | CallNewSCChan =>
      h' = mkHeap (<[new_loc (chans h) := mkSCChan 0 ""]> (chans h))
                  (mviews h) (fviews h)
  | CallMInterface p =>
      h' = mkHeap (chans h)
                  (<[new_loc (mviews h) := mkSCCMInterface p]> (mviews h))
                  (fviews h)
  | CallFInterface p =>
      h' = mkHeap (chans h) (mviews h)
                  (<[new_loc (fviews h) := mkSCCFInterface p]> (fviews h))
  | CallWhatsUp _ => h' = h
  | CallState fInt _ info =>
      ∃ f v l c, fInt = Some f ∧ fviews h !! f = Some v ∧
        f_underlyingChan v = Some l ∧ chans h !! l = Some c ∧
        h' = mkHeap (<[l := mkSCChan UnableToStart
                               (default (additionalInfo c) (info !! 0%nat))]>
                        (chans h))
                    (mviews h) (fviews h)
  end.
Proof.
  destruct c as [|p|p|m|f s info]; cbn [exec_call]; intros H.
  - injection H as <-. reflexivity.
  - injection H as <-. reflexivity.
  - injection H as <-. reflexivity.
  - apply bind_Some in H as (r & h1 & Hw & H).
    apply WhatsUp_inv in Hw as [-> _]. rewrite ret_eq in H. congruence.
  - by apply State_inv in H.
Qed.

Section run_invariant.

Variable P : heap → Prop.
Hypothesis P_step : ∀ c h h', P h → exec_call c h = Some (tt, h') → P h'.

(** A property every call preserves holds after every sequence. *)
Lemma run_invariant cs h h' : P h → run cs h = Some (tt, h') → P h'.
Proof.
  revert h. induction cs as [|c cs IH]; intros h HP H.
  - cbn in H. rewrite ret_eq in H. congruence.
  - cbn [run] in H. apply bind_Some in H as ([] & h1 & Hc & H).
    eapply IH; [|exact H]. eapply P_step; eauto.
Qed.

End run_invariant.

(** No call removes or rebinds a master interface. *)
Lemma exec_call_mviews c h h' m w :
  exec_call c h = Some (tt, h') → mviews h !! m = Some w → mviews h' !! m = Some w.
Proof.
  intros H Hm. apply exec_call_inv in H.
  destruct c; try (subst h'; exact Hm).
  - subst h'. cbn [mviews]. rewrite lookup_insert_ne; [done|].
    intros <-. rewrite new_loc_fresh in Hm. discriminate.
  - destruct H as (? & ? & ? & ? & _ & _ & _ & _ & ->). exact Hm.
Qed.

Lemma run_mviews cs h h' m w :
  run cs h = Some (tt, h') → mviews h !! m = Some w → mviews h' !! m = Some w.
Proof.
  intros H Hm.
  apply (run_invariant (λ h, mviews h !! m = Some w)) with cs h; auto.
  intros c h0 h0' ? ?. by eapply exec_call_mviews.
Qed.

(** No call frees a channel. *)
Lemma exec_call_chans c h h' l :
  exec_call c h = Some (tt, h') → is_Some (chans h !! l) → is_Some (chans h' !! l).
Proof.
  intros H Hl. apply exec_call_inv in H.
  destruct c; try (subst h'; exact Hl).
  - subst h'. cbn [chans]. rewrite lookup_insert_is_Some'. by right.
  - destruct H as (? & ? & l' & ? & _ & _ & _ & _ & ->). cbn [chans].
    rewrite lookup_insert_is_Some'. by right.
Qed.

Lemma run_chans cs h h' l :
  run cs h = Some (tt, h') → is_Some (chans h !! l) → is_Some (chans h' !! l).
Proof.
  intros H Hl.
  apply (run_invariant (λ h, is_Some (chans h !! l))) with cs h; auto.
  intros c h0 h0' ? ?. by eapply exec_call_chans.
Qed.

Lemma exec_call_all_UnableToStart c h h' :
  all_UnableToStart h → exec_call c h = Some (tt, h') → all_UnableToStart h'.
Proof.
  intros Hinv H. apply exec_call_inv in H.
  destruct c; try (subst h'; exact Hinv).
  - subst h'. intros l c. cbn [chans]. rewrite lookup_insert.
    case_decide; [intros [= <-]; reflexivity | apply Hinv].
  - destruct H as (? & ? & l' & c' & _ & _ & _ & _ & ->).
    intros l c. cbn [chans]. rewrite lookup_insert.
    case_decide; [intros [= <-]; reflexivity | apply Hinv].
Qed.

Lemma reachable_all_UnableToStart h : reachable h → all_UnableToStart h.
Proof.
  intros [cs Hcs].
  apply (run_invariant all_UnableToStart exec_call_all_UnableToStart cs empty_heap);
    [|exact Hcs].
  intros l c. cbn. rewrite lookup_empty. discriminate.
Qed.

(** ** The documented usage *)

(** The documented usage, from any heap: the master is told
    [UnableToStart] and the first string reported, if any. *)
Lemma report_then_ask_eq h s (info : list string) :
  observe (report_then_ask s info) h =
    Some (UnableToStart, default "" (info !! 0%nat)).
Proof.
  unfold observe, report_then_ask.
  rewrite bind_eq, NewSCChan_eq, bind_eq, MInterface_eq, bind_eq, FInterface_eq.
  set (l := new_loc (chans h)). set (m := new_loc (mviews h)).
  set (f := new_loc (fviews h)).
  rewrite bind_eq.
  erewrite (State_spec _ f _ l (mkSCChan 0 ""));
    [| cbn [fviews]; apply lookup_insert_eq | reflexivity
     | cbn [chans]; apply lookup_insert_eq ].
  erewrite (WhatsUp_spec _ m _ l);
    [| cbn [mviews]; apply lookup_insert_eq | reflexivity
     | cbn [chans]; apply lookup_insert_eq ].
  reflexivity.
Qed.

(** ** The description between reports *)

(** A call that does not report a description to the channel at [l]
    leaves that channel's description as it was. *)
Lemma exec_call_keeps_info l d c h h' :
  describes l h c = false → exec_call c h = Some (tt, h') →
  (∃ c0, chans h !! l = Some c0 ∧ additionalInfo c0 = d) →
  ∃ c1, chans h' !! l = Some c1 ∧ additionalInfo c1 = d.
Proof.
  intros Hd H (c0 & Hc0 & Hd0). apply exec_call_inv in H.
  destruct c as [|p|p|m|fInt s info]; try (subst h'; eauto).
  - cbn [chans]. exists c0. split; [|done].
    rewrite lookup_insert_ne; [done|].
    intros <-. rewrite new_loc_fresh in Hc0. discriminate.
  - destruct H as (f & v & l' & c' & -> & Hf & Hv & Hc' & ->).
    cbn [chans]. destruct (decide (l' = l)) as [->|Hne].
    + eexists. split; [apply lookup_insert_eq|]. cbn [additionalInfo].
      destruct info as [|d' rest].
      * cbn. congruence.
      * exfalso. cbn [describes] in Hd. rewrite Hf, Hv in Hd.
        by rewrite bool_decide_eq_false in Hd.
    + exists c0. by rewrite lookup_insert_ne.
Qed.

Lemma run_keeps_info l d cs h h' :
  undescribed l cs h = true → run cs h = Some (tt, h') →
  (∃ c0, chans h !! l = Some c0 ∧ additionalInfo c0 = d) →
  ∃ c1, chans h' !! l = Some c1 ∧ additionalInfo c1 = d.
Proof.
  revert h. induction cs as [|c cs IH]; intros h Hu H Hc.
  - cbn in H. rewrite ret_eq in H. injection H as <-. exact Hc.
  - cbn [run] in H. apply bind_Some in H as ([] & h1 & Hx & H).
    cbn [undescribed] in Hu. rewrite Hx in Hu.
    apply andb_true_iff in Hu as [Hn Hu]. apply negb_true_iff in Hn.
    apply (IH h1); [exact Hu | exact H |].
    by eapply exec_call_keeps_info.
Qed.

(** * The claims *)

(** C1 (read-after-write).  The claim: after [State (s, d)] a query
    returns [(s, d)].  The source stores the constant [UnableToStart]
    instead of [s]: on a new channel, after the follower reports
    [NowActive] with "started", the master is told
    [(UnableToStart, "started")], which is not [(NowActive, "started")]. *)
Theorem State_NowActive_observed_UnableToStart :
  observe (report_then_ask NowActive ["started"%string]) empty_heap
    = Some (UnableToStart, "started"%string) ∧
  observe (report_then_ask NowActive ["started"%string]) empty_heap
    ≠ Some (NowActive, "started"%string).
Proof.
  rewrite report_then_ask_eq. split; [reflexivity | discriminate].
Qed.

(** C2.  For every state code and every list of descriptions, [State]
    on a follower interface of an allocated channel returns and leaves
    [UnableToStart] in the channel's [followerState], whatever the
    state passed. *)
Theorem State_stores_UnableToStart h f v l c (s : Z) (info : list string) :
  fviews h !! f = Some v → f_underlyingChan v = Some l →
  chans h !! l = Some c →
  ∃ h' c', State (Some f) s info h = Some (tt, h') ∧
    chans h' !! l = Some c' ∧ followerState c' = UnableToStart.
Proof.
  intros Hf Hv Hc. eexists _, _. split; [by eapply State_spec|].
  cbn [chans]. rewrite lookup_insert_eq. split; reflexivity.
Qed.

Lemma State_stores_UnableToStart_witness :
  ∃ h' c', State (Some 1%positive) 200 ["x"%string; "y"%string] sample_heap
             = Some (tt, h') ∧
    chans h' !! 1%positive = Some c' ∧ followerState c' = UnableToStart.
Proof.
  apply (State_stores_UnableToStart sample_heap 1%positive
           (mkSCCFInterface (Some 1%positive)) 1%positive
           (mkSCChan NowDead "gone") 200 ["x"%string; "y"%string]);
    reflexivity.
Defined.

(** C3 (default state).  [NewSCChan] returns a pointer to a channel
    that was not allocated before and now holds [UnableToStart] and the
    empty description; a master interface of it, asked before any
    report, answers [(UnableToStart, "")]. *)
Theorem NewSCChan_default_state h :
  (∃ l h1, NewSCChan h = Some (Some l, h1) ∧ chans h !! l = None ∧
     chans h1 !! l = Some (mkSCChan UnableToStart "")) ∧
  observe ask_new h = Some (UnableToStart, ""%string).
Proof.
  split.
  - eexists _, _. split; [apply NewSCChan_eq|].
    split; [apply new_loc_fresh | cbn [chans]; apply lookup_insert_eq].
  - unfold observe, ask_new.
    rewrite bind_eq, NewSCChan_eq, bind_eq, MInterface_eq.
    erewrite (WhatsUp_spec _ (new_loc (mviews h)) _ (new_loc (chans h)));
      [| cbn [mviews]; apply lookup_insert_eq | reflexivity
       | cbn [chans]; apply lookup_insert_eq ].
    reflexivity.
Qed.

(** C4.  A call of [State] with a description [d] returns and leaves
    [d] in the channel's [additionalInfo]; after any further calls that
    report no description to this channel, the field is still [d] and
    every master interface of the channel answers [d] as the second
    component. *)
Theorem State_description_persists h f v l c (s : Z) d (rest : list string) :
  fviews h !! f = Some v → f_underlyingChan v = Some l →
  chans h !! l = Some c →
  ∃ h1, State (Some f) s (d :: rest) h = Some (tt, h1) ∧
    ∀ cs h2, undescribed l cs h1 = true → run cs h1 = Some (tt, h2) →
      ∃ c2, chans h2 !! l = Some c2 ∧ additionalInfo c2 = d ∧
        ∀ m w, mviews h2 !! m = Some w → m_underlyingChan w = Some l →
          WhatsUp (Some m) h2 = Some ((followerState c2, d), h2).
Proof.
  intros Hf Hv Hc. eexists. split; [by eapply State_spec|].
  intros cs h2 Hu Hrun.
  destruct (run_keeps_info l d cs _ h2 Hu Hrun) as (c2 & Hc2 & Hd2).
  { eexists. cbn [chans]. split; [apply lookup_insert_eq | reflexivity]. }
  exists c2. split; [exact Hc2|]. split; [exact Hd2|].
  intros m w Hm Hw. rewrite <- Hd2. by eapply WhatsUp_spec.
Qed.

Lemma State_description_persists_witness :
  ∃ h1 h2 c2,
    State (Some 1%positive) Failed ["disk full"%string] sample_heap
      = Some (tt, h1) ∧
    run [CallState (Some 1%positive) NowDead []; CallWhatsUp (Some 1%positive);
         CallNewSCChan; CallState (Some 1%positive) NowActive []] h1
      = Some (tt, h2) ∧
    chans h2 !! 1%positive = Some c2 ∧
    additionalInfo c2 = "disk full"%string ∧
    WhatsUp (Some 1%positive) h2
      = Some ((followerState c2, "disk full"%string), h2).
Proof.
  destruct (State_description_persists sample_heap 1%positive
              (mkSCCFInterface (Some 1%positive)) 1%positive
              (mkSCChan NowDead "gone") Failed "disk full"%string [])
    as (h1 & HS & Hrest); [reflexivity..|].
  assert (E : h1 = mkHeap {[ 1%positive := mkSCChan UnableToStart "disk full" ]}
                          (mviews sample_heap) (fviews sample_heap)).
  { assert (H : Some (tt, h1) = Some (tt, mkHeap
               {[ 1%positive := mkSCChan UnableToStart "disk full" ]}
               (mviews sample_heap) (fviews sample_heap)))
      by (rewrite <- HS; reflexivity).
    congruence. }
  destruct (Hrest
      [CallState (Some 1%positive) NowDead []; CallWhatsUp (Some 1%positive);
       CallNewSCChan; CallState (Some 1%positive) NowActive []]
      (mkHeap {[ 1%positive := mkSCChan UnableToStart "disk full";
                 2%positive := mkSCChan 0 "" ]}
              (mviews sample_heap) (fviews sample_heap)))
    as (c2 & Hc2 & Hd2 & Hw); [subst h1; reflexivity..|].
  exists h1, (mkHeap {[ 1%positive := mkSCChan UnableToStart "disk full";
                        2%positive := mkSCChan 0 "" ]}
                     (mviews sample_heap) (fviews sample_heap)), c2.
  split; [exact HS|]. split; [subst h1; reflexivity|].
  split; [exact Hc2|]. split; [exact Hd2|].
  apply (Hw 1%positive (mkSCCMInterface (Some 1%positive))); reflexivity.
Defined.

(** C5 (description omission).  A call of [State] with no description
    returns; the channel then holds [UnableToStart] with the
    description it had before, and every other channel and every
    interface is as it was. *)
Theorem State_without_description_keeps_info h f v l c (s : Z) :
  fviews h !! f = Some v → f_underlyingChan v = Some l →
  chans h !! l = Some c →
  ∃ h', State (Some f) s [] h = Some (tt, h') ∧
    chans h' !! l = Some (mkSCChan UnableToStart (additionalInfo c)) ∧
    (∀ l', l' ≠ l → chans h' !! l' = chans h !! l') ∧
    mviews h' = mviews h ∧ fviews h' = fviews h.
Proof.
  intros Hf Hv Hc. eexists. split; [by eapply State_spec|].
  cbn [chans mviews fviews lookup list_lookup default].
  split; [apply lookup_insert_eq|]. split; [|done].
  intros l' Hne. by rewrite lookup_insert_ne.
Qed.

Lemma State_without_description_keeps_info_witness :
  ∃ h', State (Some 1%positive) Failed [] sample_heap = Some (tt, h') ∧
    chans h' !! 1%positive = Some (mkSCChan UnableToStart "gone") ∧
    (∀ l', l' ≠ 1%positive → chans h' !! l' = chans sample_heap !! l') ∧
    mviews h' = mviews sample_heap ∧ fviews h' = fviews sample_heap.
Proof.
  apply (State_without_description_keeps_info sample_heap 1%positive
           (mkSCCFInterface (Some 1%positive)) 1%positive
           (mkSCChan NowDead "gone") Failed);
    reflexivity.
Defined.

(** C6 (excess arguments ignored).  [State] with a first description
    [a] and any further strings does exactly what [State] with [a]
    alone does: the same outcome and the same heap, hence the same
    answer to any query made afterwards. *)
Theorem State_extra_descriptions_ignored
    fInt (s : Z) (a b : string) (rest : list string) h :
  State fInt s (a :: b :: rest) h = State fInt s [a] h ∧
  ∀ mInt, (State fInt s (a :: b :: rest);; WhatsUp mInt) h
          = (State fInt s [a];; WhatsUp mInt) h.
Proof.
  assert (E : State fInt s (a :: b :: rest) h = State fInt s [a] h).
  { unfold State. cbn [length].
    rewrite !(decide_True (P := (0 < S _)%nat)) by lia. reflexivity. }
  split; [exact E|]. intros mInt. by rewrite !bind_eq, E.
Qed.

(** C7 (views share the record).  Two master interfaces taken from one
    allocated channel by separate calls of [MInterface], with any calls
    made in between and any calls made afterwards ([State] through any
    follower interface among them), are two distinct interfaces, and
    [WhatsUp] returns the same pair through both. *)
Theorem MInterface_handles_agree h0 l c cs1 cs2 m1 m2 h1 h2 h3 h4 :
  chans h0 !! l = Some c →
  MInterface (Some l) h0 = Some (m1, h1) → run cs1 h1 = Some (tt, h2) →
  MInterface (Some l) h2 = Some (m2, h3) → run cs2 h3 = Some (tt, h4) →
  m1 ≠ m2 ∧
  ∃ r, WhatsUp m1 h4 = Some (r, h4) ∧ WhatsUp m2 h4 = Some (r, h4).
Proof.
  intros Hc HM1 Hr1 HM2 Hr2.
  rewrite MInterface_eq in HM1. injection HM1 as <- <-.
  rewrite MInterface_eq in HM2. injection HM2 as <- <-.
  set (a1 := new_loc (mviews h0)) in *. set (a2 := new_loc (mviews h2)) in *.
  assert (V1 : mviews h2 !! a1 = Some (mkSCCMInterface (Some l))).
  { eapply run_mviews; [exact Hr1|]. cbn [mviews]. apply lookup_insert_eq. }
  assert (Hne : a1 ≠ a2).
  { intros E. pose proof (new_loc_fresh (mviews h2)) as Hfr.
    fold a2 in Hfr. rewrite <- E, V1 in Hfr. discriminate. }
  assert (W1 : mviews h4 !! a1 = Some (mkSCCMInterface (Some l))).
  { eapply run_mviews; [exact Hr2|]. cbn [mviews].
    rewrite lookup_insert_ne by done. exact V1. }
  assert (W2 : mviews h4 !! a2 = Some (mkSCCMInterface (Some l))).
  { eapply run_mviews; [exact Hr2|]. cbn [mviews]. apply lookup_insert_eq. }
  assert (C4 : is_Some (chans h4 !! l)).
  { eapply run_chans; [exact Hr2|]. cbn [chans].
    eapply run_chans; [exact Hr1|]. cbn [chans]. eauto. }
  destruct C4 as [c4 C4]. split; [congruence|].
  exists (followerState c4, additionalInfo c4).
  split; eapply WhatsUp_spec; eauto.
Qed.

Lemma MInterface_handles_agree_witness :
  Some 2%positive ≠ Some 3%positive ∧
  ∃ r, WhatsUp (Some 2%positive)
         (mkHeap {[ 1%positive := mkSCChan UnableToStart "late" ]}
                 {[ 1%positive := mkSCCMInterface (Some 1%positive);
                    2%positive := mkSCCMInterface (Some 1%positive);
                    3%positive := mkSCCMInterface (Some 1%positive) ]}
                 (fviews sample_heap))
       = Some (r, mkHeap {[ 1%positive := mkSCChan UnableToStart "late" ]}
                 {[ 1%positive := mkSCCMInterface (Some 1%positive);
                    2%positive := mkSCCMInterface (Some 1%positive);
                    3%positive := mkSCCMInterface (Some 1%positive) ]}
                 (fviews sample_heap)) ∧
     WhatsUp (Some 3%positive)
         (mkHeap {[ 1%positive := mkSCChan UnableToStart "late" ]}
                 {[ 1%positive := mkSCCMInterface (Some 1%positive);
                    2%positive := mkSCCMInterface (Some 1%positive);
                    3%positive := mkSCCMInterface (Some 1%positive) ]}
                 (fviews sample_heap))
       = Some (r, mkHeap {[ 1%positive := mkSCChan UnableToStart "late" ]}
                 {[ 1%positive := mkSCCMInterface (Some 1%positive);
                    2%positive := mkSCCMInterface (Some 1%positive);
                    3%positive := mkSCCMInterface (Some 1%positive) ]}
                 (fviews sample_heap)).
Proof.
  apply (MInterface_handles_agree sample_heap 1%positive
           (mkSCChan NowDead "gone")
           [CallState (Some 1%positive) Failed ["early"%string]]
           [CallState (Some 1%positive) NowActive ["late"%string]]
           (Some 2%positive) (Some 3%positive)
           (mkHeap (chans sample_heap)
                   {[ 1%positive := mkSCCMInterface (Some 1%positive);
                      2%positive := mkSCCMInterface (Some 1%positive) ]}
                   (fviews sample_heap))
           (mkHeap {[ 1%positive := mkSCChan UnableToStart "early" ]}
                   {[ 1%positive := mkSCCMInterface (Some 1%positive);
                      2%positive := mkSCCMInterface (Some 1%positive) ]}
                   (fviews sample_heap))
           (mkHeap {[ 1%positive := mkSCChan UnableToStart "early" ]}
                   {[ 1%positive := mkSCCMInterface (Some 1%positive);
                      2%positive := mkSCCMInterface (Some 1%positive);
                      3%positive := mkSCCMInterface (Some 1%positive) ]}
                   (fviews sample_heap)));
    reflexivity.
Defined.

(** C8.  In every heap a sequence of calls builds from the empty heap,
    each channel's [followerState] is one of the four states of
    Section A. *)
Theorem reachable_followerState_enumerated h l c :
  reachable h → chans h !! l = Some c →
  followerState c = UnableToStart ∨ followerState c = NowActive ∨
  followerState c = Failed ∨ followerState c = NowDead.
Proof.
  intros Hr Hc. left. exact (reachable_all_UnableToStart h Hr l c Hc).
Qed.

Lemma reachable_followerState_enumerated_witness :
  reachable usage_heap ∧
  (followerState (mkSCChan UnableToStart "started") = UnableToStart ∨
   followerState (mkSCChan UnableToStart "started") = NowActive ∨
   followerState (mkSCChan UnableToStart "started") = Failed ∨
   followerState (mkSCChan UnableToStart "started") = NowDead).
Proof.
  assert (Hr : reachable usage_heap) by (exists usage_calls; reflexivity).
  split; [exact Hr|].
  apply (reachable_followerState_enumerated usage_heap 1%positive
           (mkSCChan UnableToStart "started") Hr).
  reflexivity.
Defined.

(** C9 (pure read).  [WhatsUp] never changes the heap; on a master
    interface of an allocated channel it returns, with the channel's
    two fields; and two calls in a row return the same pair and leave
    the heap as it was. *)
Theorem WhatsUp_pure_read h m w l c :
  mviews h !! m = Some w → m_underlyingChan w = Some l →
  chans h !! l = Some c →
  WhatsUp (Some m) h = Some ((followerState c, additionalInfo c), h) ∧
  ask_twice (Some m) h =
    Some (((followerState c, additionalInfo c),
           (followerState c, additionalInfo c)), h) ∧
  ∀ mInt r h', WhatsUp mInt h = Some (r, h') → h' = h.
Proof.
  intros Hm Hw Hc.
  pose proof (WhatsUp_spec h m w l c Hm Hw Hc) as E.
  split; [exact E|]. split.
  - unfold ask_twice. rewrite bind_eq, E, bind_eq, E. reflexivity.
  - intros mInt r h' H. by apply WhatsUp_inv in H as [-> _].
Qed.

Lemma WhatsUp_pure_read_witness :
  WhatsUp (Some 1%positive) sample_heap
    = Some ((NowDead, "gone"%string), sample_heap) ∧
  ask_twice (Some 1%positive) sample_heap
    = Some (((NowDead, "gone"%string), (NowDead, "gone"%string)), sample_heap) ∧
  ∀ mInt r h', WhatsUp mInt sample_heap = Some (r, h') → h' = sample_heap.
Proof.
  apply (WhatsUp_pure_read sample_heap 1%positive
           (mkSCCMInterface (Some 1%positive)) 1%positive
           (mkSCChan NowDead "gone"));
    reflexivity.
Defined.

(** C10.  In every heap a sequence of calls builds from the empty heap,
    each channel's [followerState] is [UnableToStart]; so whatever
    [WhatsUp] returns there has [UnableToStart] as its first component,
    and on a master interface of an allocated channel it does return. *)
Theorem reachable_followerState_UnableToStart h :
  reachable h →
  (∀ l c, chans h !! l = Some c → followerState c = UnableToStart) ∧
  (∀ mInt r h', WhatsUp mInt h = Some (r, h') → r.1 = UnableToStart) ∧
  (∀ m w l c, mviews h !! m = Some w → m_underlyingChan w = Some l →
     chans h !! l = Some c →
     WhatsUp (Some m) h = Some ((UnableToStart, additionalInfo c), h)).
Proof.
  intros Hr. pose proof (reachable_all_UnableToStart h Hr) as Hinv.
  split; [exact Hinv|]. split.
  - intros mInt r h' H.
    apply WhatsUp_inv in H as (_ & m & w & l & c & _ & _ & _ & Hc & ->).
    cbn. by eapply Hinv.
  - intros m w l c Hm Hw Hc.
    rewrite (WhatsUp_spec h m w l c Hm Hw Hc), (Hinv l c Hc). reflexivity.
Qed.

Lemma reachable_followerState_UnableToStart_witness :
  reachable usage_heap ∧
  followerState (mkSCChan UnableToStart "started") = UnableToStart ∧
  WhatsUp (Some 1%positive) usage_heap
    = Some ((UnableToStart, "started"%string), usage_heap).
Proof.
  assert (Hr : reachable usage_heap) by (exists usage_calls; reflexivity).
  destruct (reachable_followerState_UnableToStart usage_heap Hr)
    as (Hf & _ & Hw).
  split; [exact Hr|]. split.
  - apply (Hf 1%positive). reflexivity.
  - apply (Hw 1%positive (mkSCCMInterface (Some 1%positive)) 1%positive
             (mkSCChan UnableToStart "started")); reflexivity.
Defined.

(** * Further properties of scc.go *)

(** ** Helper lemmas *)

(** No call removes or rebinds a follower interface. *)
Lemma exec_call_fviews c h h' f v :
  exec_call c h = Some (tt, h') → fviews h !! f = Some v → fviews h' !! f = Some v.
Proof.
  intros H Hf. apply exec_call_inv in H.
  destruct c; try (subst h'; exact Hf).
  - subst h'. cbn [fviews]. rewrite lookup_insert_ne; [done|].
    intros <-. rewrite new_loc_fresh in Hf. discriminate.
  - destruct H as (? & ? & ? & ? & _ & _ & _ & _ & ->). exact Hf.
Qed.

Lemma run_fviews cs h h' f v :
  run cs h = Some (tt, h') → fviews h !! f = Some v → fviews h' !! f = Some v.
Proof.
  intros H Hf.
  apply (run_invariant (λ h, fviews h !! f = Some v)) with cs h; auto.
  intros c h0 h0' ? ?. by eapply exec_call_fviews.
Qed.

(** ** Separate channels *)

(** Two calls of [NewSCChan], with any calls in between, return two
    different non-nil pointers; the second call leaves the first
    channel as it found it and its own channel in the default state. *)
Theorem NewSCChan_twice_distinct h cs p1 p2 h1 h2 h3 :
  NewSCChan h = Some (p1, h1) → run cs h1 = Some (tt, h2) →
  NewSCChan h2 = Some (p2, h3) →
  ∃ l1 l2, p1 = Some l1 ∧ p2 = Some l2 ∧ l1 ≠ l2 ∧
    is_Some (chans h2 !! l1) ∧ chans h3 !! l1 = chans h2 !! l1 ∧
    chans h3 !! l2 = Some (mkSCChan UnableToStart "").
Proof.
  intros H1 Hr H2.
  rewrite NewSCChan_eq in H1. injection H1 as <- <-.
  rewrite NewSCChan_eq in H2. injection H2 as <- <-.
  set (l1 := new_loc (chans h)) in *. set (l2 := new_loc (chans h2)).
  assert (A1 : is_Some (chans h2 !! l1)).
  { eapply run_chans; [exact Hr|]. cbn [chans]. rewrite lookup_insert_eq. eauto. }
  assert (Hne : l1 ≠ l2).
  { intros E. pose proof (new_loc_fresh (chans h2)) as Hfr. fold l2 in Hfr.
    rewrite <- E in Hfr. destruct A1 as [? A1]. congruence. }
  exists l1, l2. repeat split; try done.
  - cbn [chans]. by rewrite lookup_insert_ne.
  - cbn [chans]. apply lookup_insert_eq.
Qed.

Lemma NewSCChan_twice_distinct_witness :
  ∃ l1 l2, Some 1%positive = Some l1 ∧ Some 2%positive = Some l2 ∧ l1 ≠ l2 ∧
    is_Some (chans usage_heap !! l1) ∧
    chans (mkHeap {[ 1%positive := mkSCChan UnableToStart "started";
                     2%positive := mkSCChan 0 "" ]}
                  (mviews usage_heap) (fviews usage_heap)) !! l1
      = chans usage_heap !! l1 ∧
    chans (mkHeap {[ 1%positive := mkSCChan UnableToStart "started";
                     2%positive := mkSCChan 0 "" ]}
                  (mviews usage_heap) (fviews usage_heap)) !! l2
      = Some (mkSCChan UnableToStart "").
Proof.
  apply (NewSCChan_twice_distinct empty_heap (tail usage_calls)
           (Some 1%positive) (Some 2%positive)
           (mkHeap {[ 1%positive := mkSCChan 0 "" ]} ∅ ∅) usage_heap);
    reflexivity.
Defined.

(** [State] through a follower interface of the channel at [l] changes
    that channel only: no channel is added or removed, every other
    channel and every interface is as before, and [WhatsUp] through a
    master interface of another channel returns what it returned
    before. *)
Theorem State_changes_one_channel h f v l c (s : Z) (info : list string) :
  fviews h !! f = Some v → f_underlyingChan v = Some l →
  chans h !! l = Some c →
  ∃ h', State (Some f) s info h = Some (tt, h') ∧
    dom (chans h') = dom (chans h) ∧
    (∀ l', l' ≠ l → chans h' !! l' = chans h !! l') ∧
    mviews h' = mviews h ∧ fviews h' = fviews h ∧
    ∀ m w l', mviews h !! m = Some w → m_underlyingChan w = Some l' →
      l' ≠ l →
      observe (WhatsUp (Some m)) h' = observe (WhatsUp (Some m)) h.
Proof.
  intros Hf Hv Hc. eexists. split; [by eapply State_spec|].
  cbn [chans mviews fviews].
  split; [|split; [|split; [done|split; [done|]]]].
  - rewrite dom_insert_L. apply elem_of_dom_2 in Hc.
    apply set_eq. intros x. rewrite elem_of_union, elem_of_singleton.
    split; [intros [->|?]; done | auto].
  - intros l' Hne. by rewrite lookup_insert_ne.
  - intros m w l' Hm Hw Hne. unfold observe.
    destruct (chans h !! l') as [c'|] eqn:Hc'.
    + erewrite (WhatsUp_spec _ m w l' c'), (WhatsUp_spec h m w l' c'); eauto.
      cbn [chans]. by rewrite lookup_insert_ne.
    + assert (N : ∀ h0, mviews h0 = mviews h → chans h0 !! l' = None →
                        WhatsUp (Some m) h0 = None).
      { intros h0 E0 N0. destruct (WhatsUp (Some m) h0) as [[r h1]|] eqn:E; [|done].
        apply WhatsUp_inv in E as (_ & m' & w' & l'' & c'' & [= <-] & Hm' & Hw' & Hc'' & _).
        rewrite E0 in Hm'. congruence. }
      rewrite (N h), N; try done.
      cbn [chans]. by rewrite lookup_insert_ne.
Qed.

Lemma State_changes_one_channel_witness :
  ∃ h', State (Some 3%positive) Failed ["down"%string] two_channel_heap
          = Some (tt, h') ∧
    dom (chans h') = dom (chans two_channel_heap) ∧
    (∀ l', l' ≠ 1%positive → chans h' !! l' = chans two_channel_heap !! l') ∧
    mviews h' = mviews two_channel_heap ∧
    fviews h' = fviews two_channel_heap ∧
    ∀ m w l', mviews two_channel_heap !! m = Some w →
      m_underlyingChan w = Some l' → l' ≠ 1%positive →
      observe (WhatsUp (Some m)) h'
        = observe (WhatsUp (Some m)) two_channel_heap.
Proof.
  apply (State_changes_one_channel two_channel_heap 3%positive
           (mkSCCFInterface (Some 1%positive)) 1%positive
           (mkSCChan NowDead "gone") Failed ["down"%string]);
    reflexivity.
Defined.

(** ** When the methods panic *)

(** [State] returns exactly when its receiver is a follower interface
    whose [underlyingChan] points to a channel; on a nil receiver or a
    nil channel it panics, whatever the other arguments, and an index
    out of range never arises. *)
Theorem State_returns_iff fInt (s : Z) (info : list string) h :
  is_Some (State fInt s info h) ↔
  ∃ f v l, fInt = Some f ∧ fviews h !! f = Some v ∧
    f_underlyingChan v = Some l ∧ is_Some (chans h !! l).
Proof.
  split.
  - intros [[[] h'] H].
    apply State_inv in H as (f & v & l & c & -> & Hf & Hv & Hc & _).
    exists f, v, l. eauto.
  - intros (f & v & l & -> & Hf & Hv & [c Hc]).
    rewrite (State_spec h f v l c) by done. eauto.
Qed.

(** [WhatsUp] returns exactly when its receiver is a master interface
    whose [underlyingChan] points to a channel. *)
Theorem WhatsUp_returns_iff mInt h :
  is_Some (WhatsUp mInt h) ↔
  ∃ m w l, mInt = Some m ∧ mviews h !! m = Some w ∧
    m_underlyingChan w = Some l ∧ is_Some (chans h !! l).
Proof.
  split.
  - intros [[r h'] H].
    apply WhatsUp_inv in H as (_ & m & w & l & c & -> & Hm & Hw & Hc & _).
    exists m, w, l. eauto.
  - intros (m & w & l & -> & Hm & Hw & [c Hc]).
    rewrite (WhatsUp_spec h m w l c) by done. eauto.
Qed.

(** [MInterface] and [FInterface] never read the channel: called on a
    nil channel pointer they return an interface all the same, and
    every call of [WhatsUp] or [State] through that interface panics. *)
Theorem nil_channel_interfaces_panic h (s : Z) (info : list string) :
  is_Some (MInterface None h) ∧ is_Some (FInterface None h) ∧
  (mInterface ← MInterface None; WhatsUp mInterface) h = None ∧
  (fInterface ← FInterface None; State fInterface s info) h = None.
Proof.
  split; [rewrite MInterface_eq; eauto|].
  split; [rewrite FInterface_eq; eauto|].
  split.
  - rewrite bind_eq, MInterface_eq.
    destruct (WhatsUp _ _) as [[r h']|] eqn:E; [|done].
    apply WhatsUp_inv in E as (_ & m & w & l & c & [= <-] & Hm & Hw & _).
    cbn [mviews] in Hm. rewrite lookup_insert_eq in Hm.
    injection Hm as <-. discriminate.
  - rewrite bind_eq, FInterface_eq.
    destruct (State _ _ _ _) as [[u h']|] eqn:E; [|done].
    apply State_inv in E as (f & v & l & c & [= <-] & Hf & Hv & _).
    cbn [fviews] in Hf. rewrite lookup_insert_eq in Hf.
    injection Hf as <-. discriminate.
Qed.

(** ** Several follower interfaces, several reports *)

(** Two follower interfaces taken from one allocated channel by
    separate calls of [FInterface], with any calls in between and
    afterwards, are distinct, and [State] through either does the same:
    it returns, and leaves the same heap. *)
Theorem FInterface_handles_agree h0 l c cs1 cs2 f1 f2 h1 h2 h3 h4 :
  chans h0 !! l = Some c →
  FInterface (Some l) h0 = Some (f1, h1) → run cs1 h1 = Some (tt, h2) →
  FInterface (Some l) h2 = Some (f2, h3) → run cs2 h3 = Some (tt, h4) →
  f1 ≠ f2 ∧
  ∀ (s1 s2 : Z) (info : list string),
    ∃ h5, State f1 s1 info h4 = Some (tt, h5) ∧
          State f2 s2 info h4 = Some (tt, h5).
Proof.
  intros Hc HF1 Hr1 HF2 Hr2.
  rewrite FInterface_eq in HF1. injection HF1 as <- <-.
  rewrite FInterface_eq in HF2. injection HF2 as <- <-.
  set (a1 := new_loc (fviews h0)) in *. set (a2 := new_loc (fviews h2)) in *.
  assert (V1 : fviews h2 !! a1 = Some (mkSCCFInterface (Some l))).
  { eapply run_fviews; [exact Hr1|]. cbn [fviews]. apply lookup_insert_eq. }
  assert (Hne : a1 ≠ a2).
  { intros E. pose proof (new_loc_fresh (fviews h2)) as Hfr.
    fold a2 in Hfr. rewrite <- E, V1 in Hfr. discriminate. }
  assert (W1 : fviews h4 !! a1 = Some (mkSCCFInterface (Some l))).
  { eapply run_fviews; [exact Hr2|]. cbn [fviews].
    rewrite lookup_insert_ne by done. exact V1. }
  assert (W2 : fviews h4 !! a2 = Some (mkSCCFInterface (Some l))).
  { eapply run_fviews; [exact Hr2|]. cbn [fviews]. apply lookup_insert_eq. }
  assert (C4 : is_Some (chans h4 !! l)).
  { eapply run_chans; [exact Hr2|]. cbn [chans].
    eapply run_chans; [exact Hr1|]. cbn [chans]. eauto. }
  destruct C4 as [c4 C4]. split; [congruence|].
  intros s1 s2 info. eexists. split; eapply State_spec; eauto.
Qed.

Lemma FInterface_handles_agree_witness :
  Some 4%positive ≠ Some 5%positive ∧
  ∀ (s1 s2 : Z) (info : list string),
    ∃ h5,
      State (Some 4%positive) s1 info
        (mkHeap (chans two_channel_heap) (mviews two_channel_heap)
           (<[5%positive := mkSCCFInterface (Some 2%positive)]>
              (<[4%positive := mkSCCFInterface (Some 2%positive)]>
                 (fviews two_channel_heap))))
        = Some (tt, h5) ∧
      State (Some 5%positive) s2 info
        (mkHeap (chans two_channel_heap) (mviews two_channel_heap)
           (<[5%positive := mkSCCFInterface (Some 2%positive)]>
              (<[4%positive := mkSCCFInterface (Some 2%positive)]>
                 (fviews two_channel_heap))))
        = Some (tt, h5).
Proof.
  apply (FInterface_handles_agree two_channel_heap 2%positive
           (mkSCChan NowActive "up") [] []
           (Some 4%positive) (Some 5%positive)
           (mkHeap (chans two_channel_heap) (mviews two_channel_heap)
              (<[4%positive := mkSCCFInterface (Some 2%positive)]>
                 (fviews two_channel_heap)))
           (mkHeap (chans two_channel_heap) (mviews two_channel_heap)
              (<[4%positive := mkSCCFInterface (Some 2%positive)]>
                 (fviews two_channel_heap)))
           (mkHeap (chans two_channel_heap) (mviews two_channel_heap)
              (<[5%positive := mkSCCFInterface (Some 2%positive)]>
                 (<[4%positive := mkSCCFInterface (Some 2%positive)]>
                    (fviews two_channel_heap))))
           (mkHeap (chans two_channel_heap) (mviews two_channel_heap)
              (<[5%positive := mkSCCFInterface (Some 2%positive)]>
                 (<[4%positive := mkSCCFInterface (Some 2%positive)]>
                    (fviews two_channel_heap)))));
    reflexivity.
Defined.

(** Two reports to one channel in a row, through any of its follower
    interfaces: when the second carries no description the pair does
    what the first alone does; when the second carries one, the pair
    does what the second alone does. *)
Theorem State_then_State h f1 v1 f2 v2 l c
    (s1 s2 : Z) (info1 : list string) (d : string) (rest : list string) :
  fviews h !! f1 = Some v1 → f_underlyingChan v1 = Some l →
  fviews h !! f2 = Some v2 → f_underlyingChan v2 = Some l →
  chans h !! l = Some c →
  (State (Some f1) s1 info1;; State (Some f2) s2 []) h
    = State (Some f1) s1 info1 h ∧
  (State (Some f1) s1 info1;; State (Some f2) s2 (d :: rest)) h
    = State (Some f2) s2 (d :: rest) h.
Proof.
  intros Hf1 Hv1 Hf2 Hv2 Hc.
  rewrite !bind_eq, (State_spec h f1 v1 l c) by done.
  split.
  - erewrite (State_spec _ f2 v2 l); [| exact Hf2 | exact Hv2
      | cbn [chans]; apply lookup_insert_eq ].
    cbn [chans mviews fviews additionalInfo lookup list_lookup default].
    by rewrite insert_insert_eq.
  - erewrite (State_spec _ f2 v2 l); [| exact Hf2 | exact Hv2
      | cbn [chans]; apply lookup_insert_eq ].
    rewrite (State_spec h f2 v2 l c) by done.
    cbn [chans mviews fviews additionalInfo lookup list_lookup default].
    by rewrite insert_insert_eq.
Qed.

Lemma State_then_State_witness :
  (State (Some 1%positive) Failed ["disk full"%string];;
   State (Some 3%positive) NowDead []) two_channel_heap
    = State (Some 1%positive) Failed ["disk full"%string] two_channel_heap ∧
  (State (Some 1%positive) Failed ["disk full"%string];;
   State (Some 3%positive) NowDead ["bye"%string; "x"%string]) two_channel_heap
    = State (Some 3%positive) NowDead ["bye"%string; "x"%string] two_channel_heap.
Proof.
  apply (State_then_State two_channel_heap
           1%positive (mkSCCFInterface (Some 1%positive))
           3%positive (mkSCCFInterface (Some 1%positive))
           1%positive (mkSCChan NowDead "gone")
           Failed NowDead ["disk full"%string] "bye"%string ["x"%string]);
    reflexivity.
Defined.

(** ** Where descriptions come from *)

Lemma reported_cons c cs : reported (c :: cs) = reported [c] ++ reported cs.
Proof. destruct c as [| | | |f s [|d rest]]; reflexivity. Qed.

Lemma info_among_weaken ds ds' h :
  info_among ds h → info_among (ds ++ ds') h.
Proof.
  intros H l c Hc. destruct (H l c Hc) as [E|E]; [by left|right].
  apply elem_of_app. by left.
Qed.

Lemma exec_call_info_among ds c h h' :
  info_among ds h → exec_call c h = Some (tt, h') →
  info_among (ds ++ reported [c]) h'.
Proof.
  intros Hinv H. apply exec_call_inv in H.
  destruct c as [|p|p|m|fInt s info];
    try (subst h'; by apply info_among_weaken).
  - subst h'. intros l c. cbn [chans]. rewrite lookup_insert.
    case_decide; [intros [= <-]; by left | by apply (info_among_weaken ds _ h)].
  - destruct H as (f & v & l' & c' & _ & _ & _ & Hc' & ->).
    intros l c. cbn [chans]. rewrite lookup_insert.
    case_decide; [|by apply (info_among_weaken ds _ h)].
    intros [= <-]. cbn [additionalInfo].
    destruct info as [|d rest]; cbn.
    + destruct (Hinv l' c' Hc') as [E|E]; [by left|right].
      by rewrite app_nil_r.
    + right. apply elem_of_app. right. apply list_elem_of_singleton. done.
Qed.

Lemma run_info_among cs ds h h' :
  info_among ds h → run cs h = Some (tt, h') →
  info_among (ds ++ reported cs) h'.
Proof.
  revert ds h. induction cs as [|c cs IH]; intros ds h Hinv H.
  - cbn in H. rewrite ret_eq in H. injection H as <-.
    by apply info_among_weaken.
  - cbn [run] in H. apply bind_Some in H as ([] & h1 & Hc & H).
    rewrite reported_cons, app_assoc.
    apply (IH _ h1); [|exact H]. by apply (exec_call_info_among ds c h h1).
Qed.

(** The package makes up no description: in the heap a call sequence
    builds from the empty heap, every channel's [additionalInfo] is
    empty or is the first string some call of [State] in the sequence
    passed, and so is the second component of whatever [WhatsUp]
    returns there. *)
Theorem additionalInfo_is_reported cs h :
  run cs empty_heap = Some (tt, h) →
  (∀ l c, chans h !! l = Some c →
     additionalInfo c = ""%string ∨ additionalInfo c ∈ reported cs) ∧
  (∀ mInt r h', WhatsUp mInt h = Some (r, h') →
     r.2 = ""%string ∨ r.2 ∈ reported cs).
Proof.
  intros Hr.
  assert (Hinv : info_among ([] ++ reported cs) h).
  { apply (run_info_among cs [] empty_heap); [|exact Hr].
    intros l c. cbn. rewrite lookup_empty. discriminate. }
  cbn [app] in Hinv. split; [exact Hinv|].
  intros mInt r h' H.
  apply WhatsUp_inv in H as (_ & m & w & l & c & _ & _ & _ & Hc & ->).
  cbn. by eapply Hinv.
Qed.

Lemma additionalInfo_is_reported_witness :
  run usage_calls empty_heap = Some (tt, usage_heap) ∧
  (additionalInfo (mkSCChan UnableToStart "started") = ""%string ∨
   additionalInfo (mkSCChan UnableToStart "started") ∈ reported usage_calls).
Proof.
  split; [reflexivity|].
  apply (proj1 (additionalInfo_is_reported usage_calls usage_heap eq_refl)
           1%positive).
  reflexivity.
Defined.

(** ** Allocation leaves answers alone *)

(** Making a channel or taking an interface changes no answer: after
    [NewSCChan], [MInterface] or [FInterface], [WhatsUp] through a
    master interface of an allocated channel returns the pair it
    returned before. *)
Theorem allocation_keeps_answers h m w l c p :
  mviews h !! m = Some w → m_underlyingChan w = Some l →
  chans h !! l = Some c →
  observe (NewSCChan;; WhatsUp (Some m)) h = observe (WhatsUp (Some m)) h ∧
  observe (MInterface p;; WhatsUp (Some m)) h = observe (WhatsUp (Some m)) h ∧
  observe (FInterface p;; WhatsUp (Some m)) h = observe (WhatsUp (Some m)) h.
Proof.
  intros Hm Hw Hc. unfold observe.
  rewrite (WhatsUp_spec h m w l c) by done.
  rewrite !bind_eq, NewSCChan_eq, MInterface_eq, FInterface_eq.
  split; [|split].
  - erewrite (WhatsUp_spec _ m w l c); [done | done | done |].
    cbn [chans]. rewrite lookup_insert_ne; [done|].
    intros E. rewrite <- E, new_loc_fresh in Hc. discriminate.
  - erewrite (WhatsUp_spec _ m w l c); [done | | done | done].
    cbn [mviews]. rewrite lookup_insert_ne; [done|].
    intros E. rewrite <- E, new_loc_fresh in Hm. discriminate.
  - by erewrite (WhatsUp_spec _ m w l c).
Qed.

Lemma allocation_keeps_answers_witness :
  observe (NewSCChan;; WhatsUp (Some 2%positive)) two_channel_heap
    = observe (WhatsUp (Some 2%positive)) two_channel_heap ∧
  observe (MInterface None;; WhatsUp (Some 2%positive)) two_channel_heap
    = observe (WhatsUp (Some 2%positive)) two_channel_heap ∧
  observe (FInterface None;; WhatsUp (Some 2%positive)) two_channel_heap
    = observe (WhatsUp (Some 2%positive)) two_channel_heap.
Proof.
  apply (allocation_keeps_answers two_channel_heap 2%positive
           (mkSCCMInterface (Some 2%positive)) 2%positive
           (mkSCChan NowActive "up") None);
    reflexivity.
Defined.

(** ** A report, then a query *)

(** On any heap, a report through a follower interface of a channel
    followed by a query through a master interface of the same channel
    returns [UnableToStart] and, as description, the first string
    reported, or the channel's earlier description when none was. *)
Theorem State_then_WhatsUp h f v m w l c (s : Z) (info : list string) :
  fviews h !! f = Some v → f_underlyingChan v = Some l →
  mviews h !! m = Some w → m_underlyingChan w = Some l →
  chans h !! l = Some c →
  observe (State (Some f) s info;; WhatsUp (Some m)) h
    = Some (UnableToStart, default (additionalInfo c) (info !! 0%nat)).
Proof.
  intros Hf Hv Hm Hw Hc. unfold observe.
  rewrite bind_eq, (State_spec h f v l c) by done.
  rewrite (WhatsUp_spec _ m w l
             (mkSCChan UnableToStart
                (default (additionalInfo c) (info !! 0%nat))));
    [reflexivity | exact Hm | exact Hw |].
  cbn [chans]. apply lookup_insert_eq.
Qed.

Lemma State_then_WhatsUp_witness :
  observe (State (Some 3%positive) Failed [];; WhatsUp (Some 1%positive))
          two_channel_heap
    = Some (UnableToStart, "gone"%string).
Proof.
  apply (State_then_WhatsUp two_channel_heap
           3%positive (mkSCCFInterface (Some 1%positive))
           1%positive (mkSCCMInterface (Some 1%positive))
           1%positive (mkSCChan NowDead "gone") Failed []);
    reflexivity.
Defined.
